(** * Secura landing page: the UI-state core of [src/App.tsx]

  A shallow embedding of the stateful pieces of the page: the
  encryption demo (a timer-driven progress task), the cost calculator,
  the toast list, the theme initialiser, the FAQ accordion and the
  feature tour.

  React state cells are record fields; an event handler is a function
  from state to state.  Values read from the outside world (the clock
  read by [Date.now()], the draw made by [Math.random()], the browser's
  storage and colour-scheme query) are explicit arguments.  JavaScript
  numbers that stay integral are [Z]; the progress value and the prices
  are exact rationals ([Q]), so the rounding of binary64 arithmetic is
  left out; the concrete runs below use draws whose sums binary64
  represents exactly. *)

From Stdlib Require Import QArith Qround ZArith Lia Lqa.
From stdpp Require Import gmap strings list pretty.

Local Open Scope string_scope.

(* ===================================================================== *)
(** ** EncryptionDemo (lines 154-252) *)
(* ===================================================================== *)

Module Demo.

(** The four [useState] cells of the component, and the interval
    handles that [setInterval] has handed out and [clearInterval] has
    not yet cleared. *)
Record State := mkState {
  file : string;
  encrypting : bool;
  encrypted : bool;
  progress : Q;
  intervals : list nat;
  nextHandle : nat
}.

Definition initial : State :=
  {| file := ""; encrypting := false; encrypted := false;
     progress := 0; intervals := []; nextHandle := 0 |}.

(** [onChange={(e) => setFile(e.target.value)}].  A [string] is a
    sequence of 8-bit characters: text with a code unit above U+00FF, on
    which the [btoa] of the result panel throws, is not covered. *)
Definition setFile (v : string) (s : State) : State :=
  {| file := v; encrypting := encrypting s; encrypted := encrypted s;
     progress := progress s; intervals := intervals s;
     nextHandle := nextHandle s |}.

(** [simulateEncryption]: [if (!file) return;] then two setters and a
    fresh interval. The handle of the new interval is [nextHandle s]. *)
Definition simulateEncryption (s : State) : State :=
  if decide (file s = "") then s
  else {| file := file s; encrypting := true; encrypted := encrypted s;
          progress := 0;
          intervals := nextHandle s :: intervals s;
          nextHandle := S (nextHandle s) |}.

(** The updater passed to [setProgress] inside the interval callback,
    together with the three effects of its first branch.  [r] is the
    value returned by [Math.random()].  The sum is the exact one: where
    the rounding of the code's binary64 addition could decide a
    statement, the statement is made about the cell, not about sums of
    draws. *)
Definition onTick (h : nat) (r : Q) (s : State) : State :=
  if Qle_bool 100 (progress s) then
    {| file := file s; encrypting := false; encrypted := true;
       progress := 100;
       intervals := filter (λ h', h' ≠ h) (intervals s);
       nextHandle := nextHandle s |}
  else
    {| file := file s; encrypting := encrypting s;
       encrypted := encrypted s;
       progress := progress s + r * 15;
       intervals := intervals s; nextHandle := nextHandle s |}.

(** The timer only runs the callback of an interval that is live. *)
Definition tick (h : nat) (r : Q) (s : State) : State :=
  if decide (h ∈ intervals s) then onTick h r s else s.

(** [reset] *)
Definition reset (s : State) : State :=
  {| file := ""; encrypting := encrypting s; encrypted := false;
     progress := 0; intervals := intervals s;
     nextHandle := nextHandle s |}.

(** The spec's three-valued status, read off the two booleans the way
    the render does: the progress bar and the busy button are shown
    when [encrypting], the result panel when [encrypted]. *)
Inductive Status := idle | running | complete.

Definition status (s : State) : Status :=
  if encrypting s then running
  else if encrypted s then complete else idle.

(** What [Math.random()] may return. *)
Definition is_draw (r : Q) : Prop := (0 <= r)%Q ∧ (r < 1)%Q.

(** The states seen after each of the ticks of interval [h], one per
    element of [rs], oldest first. *)
Fixpoint samples (h : nat) (rs : list Q) (s : State) : list State :=
  match rs with
  | [] => []
  | r :: rs' => let s' := tick h r s in s' :: samples h rs' s'
  end.

(** The state after all the ticks of [rs]. *)
Definition run (h : nat) (rs : list Q) (s : State) : State :=
  foldl (λ s r, tick h r s) s rs.

(** Sum of the increments [Math.random() * 15] of the draws [rs]. *)
Definition increments (rs : list Q) : Q :=
  foldr (λ r acc, (r * 15 + acc)%Q) 0%Q rs.

(** What the rendered component lets happen.  The text input and the
    "Encrypt Now" button are in the [!encrypted] branch of the render,
    the button is [disabled] while [encrypting], and "Try another" is in
    the [encrypted] branch. *)
Inductive UiEvent :=
| TypeText (v : string)
| ClickEncrypt
| ClickReset
| Tick (h : nat) (r : Q).

Definition ui_step (s : State) (e : UiEvent) : State :=
  match e with
  | TypeText v => if encrypted s then s else setFile v s
  | ClickEncrypt =>
      if encrypted s || encrypting s then s else simulateEncryption s
  | ClickReset => if encrypted s then reset s else s
  | Tick h r => tick h r s
  end.

Definition ui_run (evs : list UiEvent) : State := foldl ui_step initial evs.

(** The demo just after "secret" has been typed and the button pressed,
    and the handle of its interval. *)
Definition secret_started : State :=
  simulateEncryption (setFile "secret" initial).

Definition secret_handle : nat := nextHandle (setFile "secret" initial).

(** A state in which interval [h] has finished its work. *)
Definition finished (h : nat) (s : State) : Prop :=
  status s = complete ∧ progress s = 100%Q ∧ h ∉ intervals s.

(** Under the gating of the rendered controls the two flags are never
    both set, a live interval means the task is running, and there is at
    most one live interval. *)
Definition ui_inv (s : State) : Prop :=
  (encrypting s = true → encrypted s = false) ∧
  (encrypting s = false → intervals s = []) ∧
  (∃ h, intervals s = [] ∨ intervals s = [h]).

End Demo.

(* ===================================================================== *)
(** ** ComparisonCalculator (lines 255-338) *)
(* ===================================================================== *)

Module Calc.

Record Competitor := mkCompetitor {
  name : string;
  pricePerGB : Q;
  hasE2E : bool
}.

(** The prices are the decimal literals of the source as exact
    rationals; the code holds their nearest binary64 values. *)
Definition competitors : list Competitor :=
  [ {| name := "Secura"; pricePerGB := 0; hasE2E := true |};
    {| name := "Tresorit"; pricePerGB := 15 # 100; hasE2E := true |};
    {| name := "Dropbox"; pricePerGB := 10 # 100; hasE2E := false |};
    {| name := "Google Drive"; pricePerGB := 2 # 100; hasE2E := false |} ].

(** [const totalGB = files * size;] the sliders give integers
    ([parseInt]); [size] is labelled "Avg. Size (MB)". *)
Definition totalGB (files size : Z) : Q := inject_Z (files * size).

Record Cost := mkCost {
  cname : string;
  cost : Q;
  cE2E : bool
}.

Definition costOf (files size : Z) (c : Competitor) : Cost :=
  {| cname := name c;
     cost := if Qeq_bool (pricePerGB c) 0 then 0
             else totalGB files size * pricePerGB c;
     cE2E := hasE2E c |}.

Definition costs (files size : Z) : list Cost :=
  costOf files size <$> competitors.

(** [x.toFixed(2)] on a value of magnitude below 1e21: the integer
    number of hundredths nearest to [x], the larger one on a tie, the
    sign handled apart. *)
Definition hundredths (x : Q) : Z :=
  if Qle_bool 0 x then Qfloor (x * 100 + (1 # 2))
  else (- Qfloor (- x * 100 + (1 # 2)))%Z.

Definition two_digits (n : Z) : string :=
  if (n <? 10)%Z then "0" ++ pretty n else pretty n.

Definition toFixed2 (x : Q) : string :=
  let n := hundredths x in
  (if (n <? 0)%Z then "-" else "") ++
  pretty (Z.abs n / 100)%Z ++ "." ++ two_digits (Z.abs n mod 100)%Z.

(** [{(totalGB / 1024).toFixed(2)} GB] *)
Definition storageShown (files size : Z) : Q := totalGB files size / 1024.

Definition storageLabel (files size : Z) : string :=
  toFixed2 (storageShown files size) ++ " GB".

(** [{c.cost === 0 ? 'FREE' : `$${c.cost.toFixed(2)}/mo`}] *)
Definition costLabel (c : Cost) : string :=
  if Qeq_bool (cost c) 0 then "FREE"
  else "$" ++ toFixed2 (cost c) ++ "/mo".

(** The range the two sliders allow ([min]/[max] of the inputs). *)
Definition in_range (files size : Z) : Prop :=
  (10 ≤ files ≤ 1000)%Z ∧ (1 ≤ size ≤ 100)%Z.

End Calc.

(* ===================================================================== *)
(** ** Toasts (lines 12-16, 541-552) *)
(* ===================================================================== *)

Module Toasts.

Inductive ToastType := success | error | info.

Record Toast := mkToast {
  id : Z;
  type : ToastType;
  message : string
}.

(** The [toasts] cell, and the callbacks handed to [setTimeout] that
    have not run yet, each known by the [id] its closure captured.
    Nothing in the file calls [clearTimeout]. *)
Record State := mkState {
  toasts : list Toast;
  timeouts : list Z
}.

Definition initial : State := {| toasts := []; timeouts := [] |}.

(** [prev => prev.filter(t => t.id !== id)] *)
Definition without (i : Z) (prev : list Toast) : list Toast :=
  filter (λ t, id t ≠ i) prev.

(** [addToast]; [now] is the value of [Date.now()]. *)
Definition addToast (now : Z) (ty : ToastType) (msg : string)
    (s : State) : State :=
  {| toasts := toasts s ++ [ {| id := now; type := ty; message := msg |} ];
     timeouts := timeouts s ++ [now] |}.

(** [dismissToast] *)
Definition dismissToast (i : Z) (s : State) : State :=
  {| toasts := without i (toasts s); timeouts := timeouts s |}.

(** Remove the first pending callback that captured [i]. *)
Fixpoint unschedule (i : Z) (l : list Z) : list Z :=
  match l with
  | [] => []
  | j :: l' => if decide (j = i) then l' else j :: unschedule i l'
  end.

(** A callback scheduled by [addToast] runs, 5000ms after the push. *)
Definition fire (i : Z) (s : State) : State :=
  {| toasts := without i (toasts s); timeouts := unschedule i (timeouts s) |}.

Inductive Event :=
| Push (now : Z) (ty : ToastType) (msg : string)
| Dismiss (i : Z)
| Expire (i : Z).

(** Only a scheduled callback can run. *)
Definition step (s : State) (e : Event) : State :=
  match e with
  | Push now ty msg => addToast now ty msg s
  | Dismiss i => dismissToast i s
  | Expire i => if decide (i ∈ timeouts s) then fire i s else s
  end.

Definition run (evs : list Event) (s : State) : State := foldl step s evs.

Definition live_ids (s : State) : list Z := id <$> toasts s.

(** The ids [addToast] hands out along [evs], oldest first. *)
Fixpoint assigned (evs : list Event) : list Z :=
  match evs with
  | [] => []
  | Push now _ _ :: evs' => now :: assigned evs'
  | _ :: evs' => assigned evs'
  end.

(** Each push reads a later clock value than the push before it. *)
Fixpoint clock_advances (last : option Z) (evs : list Event) : Prop :=
  match evs with
  | [] => True
  | Push now _ _ :: evs' =>
      match last with Some t => (t < now)%Z | None => True end
      ∧ clock_advances (Some now) evs'
  | _ :: evs' => clock_advances last evs'
  end.

(** Along a run the clock bounds every live id. *)
Definition bounded_by (last : option Z) (s : State) : Prop :=
  ∀ i, i ∈ live_ids s → ∃ c : Z, last = Some c ∧ (i ≤ c)%Z.

End Toasts.

(* ===================================================================== *)
(** ** Theme (lines 533-540, 555, 727) *)
(* ===================================================================== *)

Module Theme.

(** What the initialiser can see of the browser: the storage and the
    answer of [matchMedia('(prefers-color-scheme: dark)').matches]. *)
Record Window := mkWindow {
  localStorage : gmap string string;
  prefersDark : bool
}.

Definition theme_key : string := "secura-theme".

(** The initialiser of the [darkMode] cell; [None] is
    [typeof window === 'undefined'].  [if (saved)] rejects a missing
    key and the empty string. *)
Definition initDarkMode (w : option Window) : bool :=
  match w with
  | Some w =>
      match localStorage w !! theme_key with
      | Some saved =>
          if decide (saved = "") then prefersDark w
          else bool_decide (saved = "dark")
      | None => prefersDark w
      end
  | None => true
  end.

(** [darkMode ? 'dark' : 'light'] *)
Definition theme_name (darkMode : bool) : string :=
  if darkMode then "dark" else "light".

(** The effect that runs after every change of [darkMode]. *)
Definition persist (darkMode : bool) (w : Window) : Window :=
  {| localStorage := <[theme_key := theme_name darkMode]> (localStorage w);
     prefersDark := prefersDark w |}.

(** [onClick={() => setDarkMode(!darkMode)}] followed by the effect. *)
Definition toggle (darkMode : bool) (w : Window) : bool * Window :=
  (negb darkMode, persist (negb darkMode) w).

End Theme.

(* ===================================================================== *)
(** ** FAQ accordion (lines 532, 1386-1429) *)
(* ===================================================================== *)

Module Faq.

(** [openFaq : number | null]; [index] is the position of the item in
    [faqs.map]. *)
Definition select (index : nat) (openFaq : option nat) : option nat :=
  if decide (openFaq = Some index) then None else Some index.

(** [openFaq === index], which decides whether item [index] shows its
    answer. *)
Definition is_open (openFaq : option nat) (index : nat) : bool :=
  bool_decide (openFaq = Some index).

(** The items of an [n]-item list that are rendered open. *)
Definition open_items (n : nat) (openFaq : option nat) : list nat :=
  filter (λ i, is_open openFaq i = true) (seq 0 n).

End Faq.

(* ===================================================================== *)
(** ** FeatureTour and closeTour (lines 453-525, 542, 563-573, 917) *)
(* ===================================================================== *)

Module Tour.

Definition steps : list (string * string) :=
  [ ("Upload Files", "Drag and drop or click to upload any file type");
    ("Auto Encryption", "Files are automatically encrypted with AES-256");
    ("Choose Storage", "Save locally, to cloud, or use our platform");
    ("Share Securely", "Share with encrypted links and expiry dates") ].

Definition N : Z := Z.of_nat (length steps).

Definition seen_key : string := "secura-tour-seen".

(** [showTour] of [App]; whether a [FeatureTour] is mounted, which it
    still is while [AnimatePresence] plays its exit animation after
    [showTour] has become false; the [step] cell of that component; the
    storage; and the [localStorage.setItem] calls made so far. *)
Record State := mkState {
  showTour : bool;
  mounted : bool;
  step : Z;
  storage : gmap string string;
  setItems : list (string * string)
}.

(** [setShowTour(true)].  A panel that is not mounted is mounted, with
    [step] initialised to 0; a panel that is still mounted (shown, or on
    its way out) is kept, with the step it has. *)
Definition openTour (s : State) : State :=
  {| showTour := true; mounted := true;
     step := if mounted s then step s else 0;
     storage := storage s; setItems := setItems s |}.

(** [closeTour]: no guard, two statements.  The panel stays mounted. *)
Definition closeTour (s : State) : State :=
  {| showTour := false; mounted := mounted s; step := step s;
     storage := <[seen_key := "true"]> (storage s);
     setItems := setItems s ++ [(seen_key, "true")] |}.

(** The exit animation has ended: a panel that has not been reopened in
    the meantime is unmounted. *)
Definition exitComplete (s : State) : State :=
  if showTour s then s
  else {| showTour := false; mounted := false; step := step s;
          storage := storage s; setItems := setItems s |}.

Definition setStep (n : Z) (s : State) : State :=
  {| showTour := showTour s; mounted := mounted s; step := n;
     storage := storage s; setItems := setItems s |}.

(** The "Previous" button of a mounted panel exists only when
    [step > 0]. *)
Definition previous (s : State) : State :=
  if mounted s && (0 <? step s)%Z then setStep (step s - 1) s else s.

(** The right-hand button of a mounted panel: "Next" when
    [step < steps.length - 1], otherwise "Get Started", whose handler is
    [onClose]. *)
Definition next (s : State) : State :=
  if mounted s then
    if (step s <? N - 1)%Z then setStep (step s + 1) s else closeTour s
  else s.

Inductive Action := Next | Previous.

Definition act (s : State) (a : Action) : State :=
  match a with Next => next s | Previous => previous s end.

Definition run (acts : list Action) (s : State) : State := foldl act s acts.


End Tour.

(* ===================================================================== *)
(** ** The page around the tour (lines 479, 542, 563-573, 917, 1513) *)
(* ===================================================================== *)

Module Page.

(** [if (!seen)] in the mount effect: a missing key and the empty string
    both count as not seen. *)
Definition autoOpenScheduled (storage : gmap string string) : bool :=
  match storage !! Tour.seen_key with
  | Some seen => bool_decide (seen = "")
  | None => true
  end.

(** The tour cells, and whether the 2000ms callback scheduled by the
    mount effect has still to run. *)
Record State := mkState {
  tour : Tour.State;
  autoPending : bool
}.

(** The tour cells of a page whose tour effect (line 563) has just run
    on [storage].  The theme effect (line 555) runs before it and writes
    its own key, which nothing here reads: [storage] is the storage as
    the tour effect finds it. *)
Definition mount (storage : gmap string string) : State :=
  {| tour := {| Tour.showTour := false; Tour.mounted := false;
                Tour.step := 0;
                Tour.storage := storage; Tour.setItems := [] |};
     autoPending := autoOpenScheduled storage |}.

Inductive Event :=
| ClickNext
| ClickPrevious
| ClickClose
| ClickTakeTour
| AutoOpen
| ExitDone.

(** The "X" button of a mounted panel calls [onClose]; "Take Tour" and
    the timer call [setShowTour(true)]; [ExitDone] is the end of the exit
    animation. *)
Definition step (s : State) (e : Event) : State :=
  match e with
  | ClickNext => {| tour := Tour.next (tour s); autoPending := autoPending s |}
  | ClickPrevious =>
      {| tour := Tour.previous (tour s); autoPending := autoPending s |}
  | ClickClose =>
      {| tour := if Tour.mounted (tour s) then Tour.closeTour (tour s)
                 else tour s;
         autoPending := autoPending s |}
  | ClickTakeTour =>
      {| tour := Tour.openTour (tour s); autoPending := autoPending s |}
  | AutoOpen =>
      if autoPending s
      then {| tour := Tour.openTour (tour s); autoPending := false |}
      else s
  | ExitDone =>
      {| tour := Tour.exitComplete (tour s); autoPending := autoPending s |}
  end.

Definition run (evs : list Event) (s : State) : State := foldl step s evs.

(** What holds of the tour cells after any events on a page mounted on
    [storage]: the step is in range, a shown panel is mounted, every
    write made was the seen-flag set to "true", and the flag reads as it
    did before the first write and as "true" after it. *)
Definition page_inv (storage : gmap string string) (s : State) : Prop :=
  (0 ≤ Tour.step (tour s) ≤ Tour.N - 1)%Z ∧
  (Tour.showTour (tour s) = true → Tour.mounted (tour s) = true) ∧
  (Tour.setItems (tour s) = [] →
     Tour.storage (tour s) !! Tour.seen_key = storage !! Tour.seen_key) ∧
  (Tour.setItems (tour s) ≠ [] →
     Tour.storage (tour s) !! Tour.seen_key = Some "true") ∧
  Forall (λ kv, kv = (Tour.seen_key, "true")) (Tour.setItems (tour s)).

End Page.

(* ===================================================================== *)
(** ** Theme across mounts (lines 533-540, 555, 727, 760) *)
(* ===================================================================== *)

Module ThemeSession.

(** The [darkMode] cell and the browser it writes to. *)
Definition State : Type := bool * Theme.Window.

(** First render: the initialiser, then the effect that depends on
    [darkMode], which also runs after the first render. *)
Definition mount (w : Theme.Window) : State :=
  let darkMode := Theme.initDarkMode (Some w) in
  (darkMode, Theme.persist darkMode w).

(** One click on either of the two theme buttons. *)
Definition click (st : State) : State := Theme.toggle st.1 st.2.

(** The same storage under another system colour scheme. *)
Definition with_system (sys : bool) (w : Theme.Window) : Theme.Window :=
  {| Theme.localStorage := Theme.localStorage w; Theme.prefersDark := sys |}.

End ThemeSession.

(* ===================================================================== *)
(** ** Scroll flags (lines 96-103, 530, 556-560) *)
(* ===================================================================== *)

Module Scroll.

(** [scrolled] of [App] and [visible] of [BackToTop]. *)
Record State := mkState {
  scrolled : bool;
  visible : bool
}.

Definition initial : State := {| scrolled := false; visible := false |}.

(** [x > y] on numbers. *)
Definition gt (x y : Q) : bool := negb (Qle_bool x y).

(** One scroll event at [window.scrollY = y]: both listeners run. *)
Definition handleScroll (s : State) (y : Q) : State :=
  {| scrolled := gt y 50; visible := gt y 500 |}.

Definition run (ys : list Q) : State := foldl handleScroll initial ys.

End Scroll.

(* ===================================================================== *)
(** ** LazyImage (lines 27-50) *)
(* ===================================================================== *)

Module LazyImage.

Record State := mkState {
  loaded : bool;
  error : bool
}.

Definition initial : State := {| loaded := false; error := false |}.

Inductive Event := Load | Error.

(** The [img] element, which carries both handlers, is rendered only
    when [error] is false. *)
Definition step (s : State) (e : Event) : State :=
  if error s then s
  else match e with
       | Load => {| loaded := true; error := error s |}
       | Error => {| loaded := loaded s; error := true |}
       end.

Definition run (evs : list Event) (s : State) : State := foldl step s evs.

(** What the render shows: the skeleton, the placeholder glyph, the
    image element, and whether the image has [opacity-100]. *)
Definition skeleton (s : State) : bool := negb (loaded s) && negb (error s).
Definition glyph (s : State) : bool := error s.
Definition img (s : State) : bool := negb (error s).
Definition opaque_img (s : State) : bool := img s && loaded s.

End LazyImage.

(* ===================================================================== *)
(** * Properties of the encryption demo *)
(* ===================================================================== *)

Section DemoFacts.
Import Demo.

Implicit Types (s : State) (h : nat) (r : Q) (rs : list Q).

(** The test [prev >= 100] of the updater, as a proposition. *)
Lemma at_least_100_spec s :
  Qle_bool 100 (progress s) = true ↔ (100 <= progress s)%Q.
Proof. apply Qle_bool_iff. Qed.

Lemma below_100_spec s :
  Qle_bool 100 (progress s) = false ↔ (progress s < 100)%Q.
Proof.
  rewrite <- not_true_iff_false, at_least_100_spec.
  split; [apply Qnot_le_lt | apply Qlt_not_le].
Qed.

Lemma tick_dead h r s : h ∉ intervals s → tick h r s = s.
Proof. intros Hh. unfold tick. by rewrite decide_False. Qed.

Lemma tick_completes h r s :
  h ∈ intervals s → (100 <= progress s)%Q → finished h (tick h r s).
Proof.
  intros Hh Hp. unfold tick, onTick. rewrite decide_True by done.
  apply at_least_100_spec in Hp. rewrite Hp.
  repeat split; simpl.
  rewrite list_elem_of_filter. tauto.
Qed.

Lemma tick_advances h r s :
  h ∈ intervals s → (progress s < 100)%Q →
  tick h r s =
    {| file := file s; encrypting := encrypting s; encrypted := encrypted s;
       progress := progress s + r * 15;
       intervals := intervals s; nextHandle := nextHandle s |}.
Proof.
  intros Hh Hp. unfold tick, onTick. rewrite decide_True by done.
  apply below_100_spec in Hp. by rewrite Hp.
Qed.

Lemma run_snoc h rs r s : run h (rs ++ [r]) s = tick h r (run h rs s).
Proof. unfold run. by rewrite foldl_app. Qed.

Lemma run_cons h rs r s : run h (r :: rs) s = run h rs (tick h r s).
Proof. reflexivity. Qed.

Lemma finished_run h rs s : finished h s → run h rs s = s.
Proof.
  intros (_ & _ & Hh). induction rs as [|r rs IH]; [done|].
  by rewrite run_cons, tick_dead.
Qed.

(** Once the draws add up to 100 the next tick finishes the task,
    whatever happened on the way. *)
Lemma run_reaches_finished h rs r s :
  h ∈ intervals s →
  (100 <= progress s + increments rs)%Q →
  finished h (run h (rs ++ [r]) s).
Proof.
  revert s. induction rs as [|r0 rs IH]; intros s Hh Hsum; simpl in Hsum.
  - apply tick_completes; [done|]. lra.
  - change ((r0 :: rs) ++ [r])%list with (r0 :: (rs ++ [r]))%list. rewrite run_cons.
    destruct (Qlt_le_dec (progress s) 100) as [Hlt|Hge].
    + rewrite tick_advances by done. apply IH; simpl; [done|]. lra.
    + pose proof (tick_completes h r0 s Hh Hge) as Hfin.
      by rewrite finished_run.
Qed.


Lemma simulateEncryption_started s :
  file s ≠ "" →
  simulateEncryption s =
    {| file := file s; encrypting := true; encrypted := encrypted s;
       progress := 0; intervals := nextHandle s :: intervals s;
       nextHandle := S (nextHandle s) |}.
Proof. intros Hf. unfold simulateEncryption. by rewrite decide_False. Qed.

(** In exact arithmetic: with a non-empty input, as soon as the
    increments drawn so far add up to 100 the following tick leaves the
    task complete, at exactly 100, with its interval cleared. *)
Lemma simulateEncryption_eventually_complete s rs r :
  file s ≠ "" →
  (100 <= increments rs)%Q →
  finished (nextHandle s) (run (nextHandle s) (rs ++ [r]) (simulateEncryption s)).
Proof.
  intros Hf Hsum. rewrite simulateEncryption_started by done.
  apply run_reaches_finished; simpl; [set_solver | lra].
Qed.

(** What the code does guarantee about the size of a sample: a tick
    starts below 100 and adds less than 15. *)
Lemma tick_below_115 h r s :
  is_draw r → (0 <= progress s < 115)%Q →
  (0 <= progress (tick h r s) < 115)%Q.
Proof.
  intros [Hr0 Hr1] Hp. unfold tick, onTick.
  destruct (decide (h ∈ intervals s)); [|done].
  destruct (Qle_bool 100 (progress s)) eqn:Hb; simpl; [lra|].
  apply below_100_spec in Hb. lra.
Qed.

Lemma samples_below_115 h rs s :
  Forall is_draw rs → (0 <= progress s < 115)%Q →
  Forall (λ s', (0 <= progress s' < 115)%Q) (samples h rs s).
Proof.
  intros Hrs. revert s. induction Hrs as [|r rs Hr _ IH]; intros s Hp; simpl.
  - constructor.
  - pose proof (tick_below_115 h r s Hr Hp). constructor; auto.
Qed.

(** Two neighbouring samples are one tick apart. *)
Lemma samples_step h rs s k a b :
  (s :: samples h rs s) !! k = Some a →
  (s :: samples h rs s) !! S k = Some b →
  ∃ r, r ∈ rs ∧ b = tick h r a.
Proof.
  revert s k. induction rs as [|r rs IH]; intros s k Ha Hb; simpl in *.
  - by destruct k.
  - destruct k as [|k]; simpl in *.
    + exists r. split; [set_solver | congruence].
    + destruct (IH _ _ Ha Hb) as (r' & Hin & ->).
      exists r'. split; [set_solver | done].
Qed.

Lemma tick_monotone_running h r s :
  (0 <= r)%Q → status (tick h r s) = running →
  (progress s <= progress (tick h r s))%Q.
Proof.
  intros Hr. unfold tick, onTick.
  destruct (decide (h ∈ intervals s)); [|lra].
  destruct (Qle_bool 100 (progress s)); simpl; [done|]. lra.
Qed.

(** The completing tick is the one tick that can lower the value. *)
Lemma tick_complete_clamps h r s :
  h ∈ intervals s → (100 <= progress s)%Q →
  status (tick h r s) = complete ∧ progress (tick h r s) = 100%Q.
Proof. intros Hh Hp. by destruct (tick_completes h r s Hh Hp) as (? & ? & _). Qed.

Lemma ui_step_inv s e : ui_inv s → ui_inv (ui_step s e).
Proof.
  intros (H1 & H2 & h0 & H3). destruct e as [v| | |h r]; simpl.
  - destruct (encrypted s) eqn:He; [by repeat split; eauto|].
    repeat split; simpl; eauto.
  - destruct (encrypted s) eqn:He; simpl; [by repeat split; eauto|].
    destruct (encrypting s) eqn:Hg; simpl; [by repeat split; eauto|].
    unfold simulateEncryption. destruct (decide (file s = "")).
    + repeat split; eauto.
    + rewrite (H2 eq_refl). repeat split; simpl; eauto; done.
  - destruct (encrypted s) eqn:He; [|by repeat split; eauto].
    unfold reset. repeat split; simpl; eauto.
  - unfold tick. destruct (decide (h ∈ intervals s)) as [Hin|]; [|by repeat split; eauto].
    unfold onTick. destruct (Qle_bool 100 (progress s)); simpl.
    + destruct H3 as [H3|H3]; rewrite H3 in Hin |- *; [set_solver|].
      apply list_elem_of_singleton in Hin as ->.
      repeat split; simpl; try done.
      * intros _. by rewrite filter_cons_False, filter_nil by tauto.
      * exists h0. left. by rewrite filter_cons_False, filter_nil by tauto.
    + repeat split; simpl; eauto.
Qed.

Lemma ui_run_inv evs : ui_inv (ui_run evs).
Proof.
  unfold ui_run. induction evs as [|e evs IH] using rev_ind.
  - split; [done|]. split; [done|]. exists 0. by left.
  - rewrite foldl_app. simpl. by apply ui_step_inv.
Qed.

(** "Try another" is only on screen once the task is complete. *)
Lemma ui_reset_offered_when_complete evs :
  encrypted (ui_run evs) = true → status (ui_run evs) = complete.
Proof.
  intros He. destruct (ui_run_inv evs) as (H1 & _).
  unfold status. destruct (encrypting (ui_run evs)); [|by rewrite He].
  rewrite H1 in He; done.
Qed.


(** C1, the code at the failing input.  With "secret" as input and every
    draw equal to 0.9375 (increment 14.0625), the eighth sample is still
    running and its value is 112.5, above 100; only the ninth tick brings
    the value back to exactly 100 and completes the task. *)
Theorem simulateEncryption_sample_exceeds_100 :
  let rs := replicate 8 (15 # 16)%Q in
  Forall is_draw rs ∧
  ∃ s8, samples secret_handle rs secret_started !! 7 = Some s8 ∧
        status s8 = running ∧
        (progress s8 == 225 # 2)%Q ∧ (100 < progress s8)%Q ∧
        status (tick secret_handle (15 # 16) s8) = complete ∧
        progress (tick secret_handle (15 # 16) s8) = 100%Q.
Proof.
  split.
  - repeat constructor; vm_compute; congruence.
  - eexists. split; [reflexivity|]. by vm_compute.
Qed.

(** C2.  After [simulateEncryption], in the sequence made of the start
    state and the samples after each tick, whenever a sample is still
    running its value is at least the value of the sample before it. *)
Theorem progress_non_decreasing_while_running s0 rs k a b :
  Forall is_draw rs →
  (simulateEncryption s0 ::
     samples (nextHandle s0) rs (simulateEncryption s0)) !! k = Some a →
  (simulateEncryption s0 ::
     samples (nextHandle s0) rs (simulateEncryption s0)) !! S k = Some b →
  status b = running →
  (progress a <= progress b)%Q.
Proof.
  intros Hrs Ha Hb Hrun.
  destruct (samples_step _ _ _ _ _ _ Ha Hb) as (r & Hin & ->).
  apply tick_monotone_running; [|done].
  rewrite Forall_forall in Hrs. by destruct (Hrs r Hin).
Qed.

Lemma progress_non_decreasing_while_running_witness :
  let a := tick secret_handle (15 # 16) secret_started in
  let b := tick secret_handle (15 # 16) a in
  (progress a <= progress b)%Q.
Proof.
  intros a b.
  apply (progress_non_decreasing_while_running
           (setFile "secret" initial) (replicate 3 (15 # 16)%Q) 1 a b).
  - repeat constructor; vm_compute; congruence.
  - reflexivity.
  - reflexivity.
  - reflexivity.
Defined.

(** C8.  With an empty input [simulateEncryption] returns the state it was
    given: status, value and the set of live intervals are what they
    were, so from idle the task stays idle and nothing is scheduled. *)
Theorem simulateEncryption_empty_input_noop s :
  file s = "" →
  simulateEncryption s = s ∧
  status (simulateEncryption s) = status s ∧
  progress (simulateEncryption s) = progress s ∧
  intervals (simulateEncryption s) = intervals s.
Proof.
  intros Hf. unfold simulateEncryption. by rewrite decide_True.
Qed.

Lemma simulateEncryption_empty_input_noop_witness :
  simulateEncryption initial = initial ∧
  status (simulateEncryption initial) = idle ∧
  progress (simulateEncryption initial) = 0%Q ∧
  intervals (simulateEncryption initial) = [].
Proof.
  apply (simulateEncryption_empty_input_noop initial). reflexivity.
Defined.

(** C9 as stated fails on a running task: [reset] does not touch
    [encrypting], so the status stays running. *)
Lemma reset_running_stays_running :
  status secret_started = running ∧
  status (reset secret_started) = running ∧
  ¬ (file (reset secret_started) = "" ∧
     progress (reset secret_started) = 0%Q ∧
     status (reset secret_started) = idle).
Proof.
  split; [reflexivity|]. split; [reflexivity|].
  intros (_ & _ & H). vm_compute in H. discriminate H.
Qed.

(** C9, amended.  From every idle or complete state [reset] clears the
    input, sets the value to 0 and leaves the status idle. *)
Theorem reset_from_idle_or_complete s :
  status s = idle ∨ status s = complete →
  file (reset s) = "" ∧ progress (reset s) = 0%Q ∧ status (reset s) = idle.
Proof.
  intros Hs. repeat split. revert Hs. unfold status, reset; simpl.
  destruct (encrypting s), (encrypted s); intros [?|?]; congruence.
Qed.

Lemma reset_from_idle_or_complete_witness :
  let s := run secret_handle (replicate 9 (15 # 16)%Q) secret_started in
  file (reset s) = "" ∧ progress (reset s) = 0%Q ∧ status (reset s) = idle.
Proof.
  intros s. apply (reset_from_idle_or_complete s). right. reflexivity.
Defined.

(** Whatever the state, [reset] clears the input and the value. *)
Lemma reset_clears_input_and_value s :
  file (reset s) = "" ∧ progress (reset s) = 0%Q ∧
  encrypting (reset s) = encrypting s ∧ intervals (reset s) = intervals s.
Proof. done. Qed.

End DemoFacts.

(* ===================================================================== *)
(** * Properties of the cost calculator *)
(* ===================================================================== *)

Section CalcFacts.
Import Calc.

Implicit Types (files size : Z) (c : Competitor).

Lemma totalGB_product files size :
  (totalGB files size == inject_Z files * inject_Z size)%Q.
Proof. unfold totalGB. by rewrite inject_Z_mult. Qed.

Lemma totalGB_positive files size :
  in_range files size → (0 < totalGB files size)%Q.
Proof.
  intros [Hf Hs]. unfold totalGB.
  change 0%Q with (inject_Z 0). rewrite <- Zlt_Qlt. nia.
Qed.

(** The guard [c.pricePerGB === 0] does not change the value: the
    product is 0 there anyway. *)
Lemma costOf_product files size c :
  (cost (costOf files size c) ==
   inject_Z files * inject_Z size * pricePerGB c)%Q.
Proof.
  unfold costOf; simpl.
  destruct (Qeq_bool (pricePerGB c) 0) eqn:Hp.
  - apply Qeq_bool_eq in Hp. rewrite Hp. ring.
  - rewrite totalGB_product. reflexivity.
Qed.

Lemma costOf_free files size c :
  (pricePerGB c == 0)%Q →
  cost (costOf files size c) = 0%Q ∧ costLabel (costOf files size c) = "FREE".
Proof.
  intros Hp. apply Qeq_eq_bool in Hp.
  unfold costLabel, costOf; simpl. by rewrite Hp.
Qed.

Lemma costOf_charged files size c :
  in_range files size → ¬ (pricePerGB c == 0)%Q →
  costLabel (costOf files size c) =
    "$" ++ toFixed2 (totalGB files size * pricePerGB c) ++ "/mo".
Proof.
  intros Hr Hp. pose proof (totalGB_positive _ _ Hr) as Hpos.
  unfold costLabel, costOf; simpl.
  destruct (Qeq_bool (pricePerGB c) 0) eqn:Hb.
  { by apply Qeq_bool_eq in Hb. }
  destruct (Qeq_bool (totalGB files size * pricePerGB c) 0) eqn:Hc; [|done].
  apply Qeq_bool_eq in Hc. exfalso. apply Hp.
  apply Qmult_integral in Hc as [Hc|Hc]; [lra|done].
Qed.

(** [toFixed(2)] is off by at most half a hundredth. *)
Lemma hundredths_close x :
  (0 <= x)%Q →
  (x - (1 # 200) < inject_Z (hundredths x) / 100 <= x + (1 # 200))%Q.
Proof.
  intros Hx. unfold hundredths.
  apply Qle_bool_iff in Hx. rewrite Hx.
  pose proof (Qfloor_le (x * 100 + (1 # 2))) as Hlo.
  pose proof (Qlt_floor (x * 100 + (1 # 2))) as Hhi.
  rewrite inject_Z_plus in Hhi. change (inject_Z 1) with 1%Q in Hhi.
  set (n := inject_Z (Qfloor (x * 100 + (1 # 2)))) in *.
  split.
  - apply Qlt_shift_div_l; lra.
  - apply Qle_shift_div_r; lra.
Qed.


Lemma storageShown_product files size :
  (storageShown files size == inject_Z files * inject_Z size / 1024)%Q.
Proof. unfold storageShown. by rewrite totalGB_product. Qed.

Lemma totalGB_is_1024_storageShown files size :
  (totalGB files size == 1024 * storageShown files size)%Q.
Proof. unfold storageShown. field. Qed.

(** C10.  In the range of the sliders every entry's cost is
    files * size * pricePerGB, an entry shows FREE exactly when its price
    is 0 (and its cost is then the literal 0), the storage line shows
    files * size / 1024 rounded to two decimals, and the quantity that is
    multiplied by the price is 1024 times the quantity shown as GB. *)
Theorem calculator_cost_and_storage files size :
  in_range files size →
  Forall2 (λ c e,
      cname e = name c ∧
      (cost e == inject_Z files * inject_Z size * pricePerGB c)%Q ∧
      ((pricePerGB c == 0)%Q → cost e = 0%Q) ∧
      (costLabel e = "FREE" ↔ (pricePerGB c == 0)%Q))
    competitors (costs files size) ∧
  storageLabel files size =
    toFixed2 (inject_Z (files * size) / 1024) ++ " GB" ∧
  (storageShown files size == inject_Z files * inject_Z size / 1024)%Q ∧
  (storageShown files size - (1 # 200) <
     inject_Z (hundredths (storageShown files size)) / 100 <=
   storageShown files size + (1 # 200))%Q ∧
  (∀ c, cost (costOf files size c) ==
        1024 * storageShown files size * pricePerGB c)%Q.
Proof.
  intros Hr. pose proof (totalGB_positive _ _ Hr) as Hpos.
  split; [|split; [done|split; [apply storageShown_product|split]]].
  - unfold costs. apply Forall2_fmap_r, Forall_Forall2_diag, Forall_forall.
    intros c _. split; [done|]. split; [apply costOf_product|]. split.
    + intros Hp. by apply costOf_free.
    + split.
      * intros Hfree. destruct (Qeq_dec (pricePerGB c) 0) as [|Hp]; [done|].
        rewrite (costOf_charged _ _ _ Hr Hp) in Hfree. discriminate Hfree.
      * intros Hp. by apply costOf_free.
  - apply hundredths_close. unfold storageShown.
    apply Qle_shift_div_l; lra.
  - intros c. rewrite costOf_product, storageShown_product. field.
Qed.

Lemma calculator_cost_and_storage_witness :
  in_range 100 5 ∧
  costLabel <$> costs 100 5 = ["FREE"; "$75.00/mo"; "$50.00/mo"; "$10.00/mo"] ∧
  storageLabel 100 5 = "0.49 GB" ∧
  (storageShown 100 5 == 100 * 5 / 1024)%Q.
Proof.
  assert (in_range 100 5) as Hr by (unfold in_range; lia).
  destruct (calculator_cost_and_storage 100 5 Hr) as (_ & _ & H & _).
  split; [exact Hr|]. split; [reflexivity|]. split; [reflexivity|exact H].
Defined.

End CalcFacts.

(* ===================================================================== *)
(** * Properties of the toast list *)
(* ===================================================================== *)

Section ToastFacts.
Import Toasts.

Implicit Types (s : State) (t u : Toast) (i now : Z) (l : list Toast)
  (evs : list Event).

Lemma elem_of_without i l t : t ∈ without i l ↔ id t ≠ i ∧ t ∈ l.
Proof. unfold without. by rewrite list_elem_of_filter. Qed.

Lemma live_ids_without i l :
  id <$> without i l = filter (λ j, j ≠ i) (id <$> l).
Proof.
  unfold without. induction l as [|t l IH]; [done|].
  rewrite fmap_cons, !filter_cons. simpl.
  destruct (decide (id t ≠ i)); by rewrite ?fmap_cons, IH.
Qed.

Lemma without_absent i l : i ∉ (id <$> l) → without i l = l.
Proof.
  intros Hi. unfold without. induction l as [|t l IH]; [done|].
  rewrite fmap_cons, not_elem_of_cons in Hi. destruct Hi as [Hne Hi].
  rewrite filter_cons_True by done. by rewrite IH.
Qed.

Lemma absent_after_without i l : i ∉ (id <$> without i l).
Proof.
  rewrite live_ids_without, list_elem_of_filter. tauto.
Qed.

Lemma NoDup_live_ids_without i l :
  NoDup (id <$> l) → NoDup (id <$> without i l).
Proof. rewrite live_ids_without. apply NoDup_filter. Qed.

(** [i] is the id of no live toast. *)
Lemma step_keeps_absent i s e :
  i ∉ live_ids s → (∀ ty msg, e ≠ Push i ty msg) → i ∉ live_ids (step s e).
Proof.
  unfold live_ids. intros Hi He. destruct e as [now ty msg|j|j]; simpl.
  - rewrite fmap_app, not_elem_of_app. split; [done|].
    simpl. rewrite list_elem_of_singleton. intros ->. by eapply He.
  - rewrite live_ids_without, list_elem_of_filter. tauto.
  - destruct (decide (j ∈ timeouts s)); [|done]. simpl.
    rewrite live_ids_without, list_elem_of_filter. tauto.
Qed.

Lemma assigned_cons_not_in i e evs :
  i ∉ assigned (e :: evs) →
  (∀ ty msg, e ≠ Push i ty msg) ∧ i ∉ assigned evs.
Proof.
  destruct e as [now ty msg|j|j]; simpl; [|by split..].
  rewrite not_elem_of_cons. intros [Hne Hi]. split; [|done].
  intros ty' msg' [= -> _ _]. done.
Qed.

Lemma run_keeps_absent i evs s :
  i ∉ live_ids s → i ∉ assigned evs → i ∉ live_ids (run evs s).
Proof.
  revert s. induction evs as [|e evs IH]; intros s Hi Hevs; [done|].
  apply assigned_cons_not_in in Hevs as [He Hevs].
  change (run (e :: evs) s) with (run evs (step s e)).
  apply IH; [|done]. by apply step_keeps_absent.
Qed.

Lemma run_unique_ids evs s last :
  clock_advances last evs →
  NoDup (live_ids s) → bounded_by last s →
  NoDup (live_ids (run evs s)).
Proof.
  revert s last. induction evs as [|e evs IH]; intros s last Hclk Hnd Hb; [done|].
  change (run (e :: evs) s) with (run evs (step s e)).
  destruct e as [now ty msg|j|j]; simpl in Hclk |- *.
  - destruct Hclk as [Hlt Hclk]. apply (IH _ (Some now)); [done|..].
    + unfold live_ids; simpl. rewrite fmap_app. apply NoDup_app.
      split; [done|]. split; [|apply NoDup_singleton].
      intros i Hi. simpl. rewrite list_elem_of_singleton. intros ->.
      destruct (Hb _ Hi) as (t & -> & Hle). lia.
    + intros i. unfold live_ids; simpl. rewrite fmap_app, elem_of_app.
      simpl. rewrite list_elem_of_singleton. intros [Hi| ->].
      * destruct (Hb _ Hi) as (t & -> & Hle). exists now. split; [done|lia].
      * exists now. split; [done|lia].
  - apply (IH _ last); [done|..].
    + by apply NoDup_live_ids_without.
    + intros i. unfold live_ids; simpl.
      rewrite live_ids_without, list_elem_of_filter. intros [_ Hi]. by apply Hb.
  - apply (IH _ last); [done|..]; destruct (decide (j ∈ timeouts s)); try done.
    + by apply NoDup_live_ids_without.
    + intros i. unfold live_ids; simpl.
      rewrite live_ids_without, list_elem_of_filter. intros [_ Hi]. by apply Hb.
Qed.

(** C3, the code at the failing input.  [Date.now()] counts
    milliseconds: two pushes that read the same value give two live
    toasts with one id, the second id is not greater than the first, and
    one dismissal, which goes by id, removes both toasts. *)
Lemma same_millisecond_pushes_share_id :
  let evs := [Push 1000 info "Contact form coming soon!";
              Push 1000 info "Contact form coming soon!"] in
  live_ids (run evs initial) = [1000; 1000]%Z ∧
  ¬ NoDup (live_ids (run evs initial)) ∧
  ¬ Forall (λ j, (j < 1000)%Z)
      (assigned [Push 1000 info "Contact form coming soon!"]) ∧
  List.length (toasts (run evs initial)) = 2%nat ∧
  toasts (dismissToast 1000 (run evs initial)) = [].
Proof.
  split; [reflexivity|]. split; [|split; [|split; reflexivity]].
  - intros H. apply NoDup_cons in H as [H _]. apply H. set_solver.
  - intros H. apply Forall_cons in H as [H _]. lia.
Qed.

(** What the code does keep: when every push reads a later clock value
    than the push before it, the live ids are pairwise distinct after
    any sequence of pushes, dismissals and expiries. *)
Lemma live_ids_unique_when_clock_advances evs :
  clock_advances None evs → NoDup (live_ids (run evs initial)).
Proof.
  intros Hclk. apply (run_unique_ids evs initial None Hclk); [constructor|].
  intros i Hi. by apply elem_of_nil in Hi.
Qed.

(** C4, the code at the failing input.  A toast is pushed and dismissed,
    and a second one is pushed while [Date.now()] still reads the same
    value.  The callback of the dismissed toast is still pending; when it
    runs it removes the second toast, which is then on screen alone. *)
Lemma stale_timeout_removes_newer_toast :
  let s := run [Push 1000 info "Contact form coming soon!";
                Dismiss 1000;
                Push 1000 info "Contact form coming soon!"] initial in
  toasts s = [ {| id := 1000; type := info;
                  message := "Contact form coming soon!" |} ] ∧
  timeouts s = [1000; 1000]%Z ∧
  toasts (step s (Expire 1000)) = [] ∧
  timeouts (step s (Expire 1000)) = [1000]%Z.
Proof. repeat split. Qed.

(** What the code does keep: dismissing a live toast removes it at once;
    the result depends only on the list (the pending callbacks are
    neither consulted nor cancelled), every toast with another id stays,
    in order, and when the callback of the dismissed toast runs later,
    after any events that do not push that id again, it changes
    nothing. *)
Lemma dismissToast_removes_immediately s t :
  t ∈ toasts s →
  (t ∉ toasts (dismissToast (id t) s)) ∧
  (id t ∉ live_ids (dismissToast (id t) s)) ∧
  toasts (dismissToast (id t) s) = filter (λ u, id u ≠ id t) (toasts s) ∧
  timeouts (dismissToast (id t) s) = timeouts s ∧
  toasts (fire (id t) (dismissToast (id t) s)) =
    toasts (dismissToast (id t) s) ∧
  ∀ evs, id t ∉ assigned evs →
    toasts (fire (id t) (run evs (dismissToast (id t) s))) =
      toasts (run evs (dismissToast (id t) s)).
Proof.
  intros Ht.
  assert (id t ∉ live_ids (dismissToast (id t) s)) as Habs
    by apply absent_after_without.
  split; [|split; [done|]].
  { simpl. rewrite elem_of_without. tauto. }
  split; [done|]. split; [done|]. split.
  - simpl. by apply without_absent.
  - intros evs Hevs. simpl. apply without_absent.
    by apply run_keeps_absent.
Qed.

End ToastFacts.

(* ===================================================================== *)
(** * Properties of the theme initialiser and of the accordion *)
(* ===================================================================== *)

Section ThemeFacts.
Import Theme.

Implicit Types (w : Window) (ls : gmap string string) (sys p : bool).

Lemma theme_name_nonempty p : theme_name p ≠ "".
Proof. by destruct p. Qed.

Lemma theme_name_is_dark p : bool_decide (theme_name p = "dark") = p.
Proof. by destruct p. Qed.

Lemma initDarkMode_saved w p :
  localStorage w !! theme_key = Some (theme_name p) →
  initDarkMode (Some w) = p.
Proof.
  intros Hs. unfold initDarkMode. rewrite Hs.
  rewrite decide_False by apply theme_name_nonempty.
  apply theme_name_is_dark.
Qed.

Lemma initDarkMode_absent w :
  localStorage w !! theme_key = None →
  initDarkMode (Some w) = prefersDark w.
Proof. intros Hs. unfold initDarkMode. by rewrite Hs. Qed.

(** An empty stored string counts as nothing stored. *)
Lemma initDarkMode_empty_string w :
  localStorage w !! theme_key = Some "" →
  initDarkMode (Some w) = prefersDark w.
Proof. intros Hs. unfold initDarkMode. by rewrite Hs. Qed.

(** Any other stored text than "dark" gives the light theme. *)
Lemma initDarkMode_other_text w saved :
  localStorage w !! theme_key = Some saved →
  saved ≠ "" → saved ≠ "dark" →
  initDarkMode (Some w) = false.
Proof.
  intros Hs Hne Hnd. unfold initDarkMode. rewrite Hs.
  rewrite decide_False by done. by rewrite bool_decide_eq_false.
Qed.

(** C5.  A stored preference wins over the system signal; with nothing
    stored the system signal is returned; without a window the result is
    dark. *)
Theorem initDarkMode_precedence ls sys p :
  initDarkMode (Some {| localStorage := <[theme_key := theme_name p]> ls;
                        prefersDark := sys |}) = p ∧
  initDarkMode (Some {| localStorage := delete theme_key ls;
                        prefersDark := sys |}) = sys ∧
  initDarkMode None = true.
Proof.
  split; [|split; [|done]].
  - apply initDarkMode_saved. simpl. apply lookup_insert_eq.
  - apply initDarkMode_absent. simpl. apply lookup_delete_eq.
Qed.

(** What a toggle writes is what a fresh start reads back. *)
Lemma toggle_then_initDarkMode darkMode w :
  initDarkMode (Some (toggle darkMode w).2) = negb darkMode.
Proof. apply initDarkMode_saved. simpl. apply lookup_insert_eq. Qed.

End ThemeFacts.

Section FaqFacts.
Import Faq.

Implicit Types (openFaq : option nat) (i j k n : nat).

Lemma is_open_spec openFaq i : is_open openFaq i = true ↔ openFaq = Some i.
Proof. unfold is_open. apply bool_decide_eq_true. Qed.

Lemma at_most_one_element (l : list nat) (m : nat) :
  NoDup l → (∀ x, x ∈ l → x = m) → (List.length l ≤ 1)%nat.
Proof.
  intros Hnd Hall. destruct l as [|a [|b l]]; simpl; [lia..|].
  exfalso. apply NoDup_cons in Hnd as [Ha _]. apply Ha.
  rewrite (Hall a), (Hall b) by set_solver. set_solver.
Qed.

Lemma open_items_at_most_one n openFaq : (List.length (open_items n openFaq) ≤ 1)%nat.
Proof.
  unfold open_items. destruct openFaq as [m|].
  - apply (at_most_one_element _ m).
    + apply NoDup_filter, NoDup_seq.
    + intros x Hx. apply list_elem_of_filter in Hx as [Hx _].
      apply is_open_spec in Hx. congruence.
  - induction (seq 0 n) as [|a l IH]; [simpl; lia|].
    rewrite filter_cons_False; [done|].
    intros Hx. by apply is_open_spec in Hx.
Qed.

(** C6.  Selecting an item that is not the active one makes it the
    active one, selecting the active one leaves none active, so two
    selections of an item that was not active leave none active; in every
    state at most one item is open. *)
Theorem select_toggles_single_item openFaq i :
  openFaq ≠ Some i →
  select i openFaq = Some i ∧
  select i (Some i) = None ∧
  select i (select i openFaq) = None ∧
  (∀ s j k, is_open s j = true → is_open s k = true → j = k) ∧
  (∀ s n, (List.length (open_items n s) ≤ 1)%nat).
Proof.
  intros Hne. unfold select.
  rewrite (decide_False (P := openFaq = Some i)) by done.
  rewrite decide_True by done.
  repeat split.
  - intros s j k Hj Hk. apply is_open_spec in Hj, Hk. congruence.
  - intros s n. apply open_items_at_most_one.
Qed.

Lemma select_toggles_single_item_witness :
  select 0 (Some 2) = Some 0 ∧
  select 0 (Some 0) = None ∧
  select 0 (select 0 (Some 2)) = None.
Proof.
  destruct (select_toggles_single_item (Some 2) 0) as (H1 & H2 & H3 & _).
  - discriminate.
  - exact (conj H1 (conj H2 H3)).
Defined.

End FaqFacts.

(* ===================================================================== *)
(** * Properties of the feature tour *)
(* ===================================================================== *)

Section TourFacts.
Import Tour.

Implicit Types (s : State) (acts : list Action).

Lemma N_is_4 : N = 4%Z.
Proof. reflexivity. Qed.

Lemma previous_unmounted s : mounted s = false → previous s = s.
Proof. intros H. unfold previous. by rewrite H. Qed.

Lemma next_unmounted s : mounted s = false → next s = s.
Proof. intros H. unfold next. by rewrite H. Qed.






(** The button that closes the panel is still there while the panel
    fades out: a second click on it runs [closeTour] again and repeats
    the write. *)
Lemma second_finish_click_writes_again :
  let s := openTour {| showTour := false; mounted := false; step := 0;
                       storage := ∅; setItems := [] |} in
  setItems (run [Next; Next; Next; Next] s) = [(seen_key, "true")] ∧
  setItems (run [Next; Next; Next; Next; Next] s) =
    [(seen_key, "true"); (seen_key, "true")] ∧
  storage (run [Next; Next; Next; Next; Next] s) =
    storage (run [Next; Next; Next; Next] s).
Proof.
  split; [reflexivity|]. split; [reflexivity|].
  simpl. unfold next, closeTour; simpl. by rewrite insert_insert_eq.
Qed.

(** Opening an unmounted panel puts the stepper in the state the theorem
    above starts from. *)
Lemma openTour_starts_in_range s :
  mounted s = false →
  showTour (openTour s) = true ∧ mounted (openTour s) = true ∧
  step (openTour s) = 0%Z.
Proof. intros H. unfold openTour; simpl. by rewrite H. Qed.

End TourFacts.

(* ===================================================================== *)
(** * More on the encryption demo *)
(* ===================================================================== *)

Section DemoMore.
Import Demo.

Implicit Types (s : State) (h : nat) (r : Q) (rs : list Q).

Lemma samples_finished h rs s :
  finished h s → Forall (λ s', s' = s) (samples h rs s).
Proof.
  intros Hfin. induction rs as [|r rs IH]; simpl; [constructor|].
  destruct Hfin as (H1 & H2 & H3).
  rewrite tick_dead by done. constructor; [done|]. apply IH.
Qed.

(** X1.  Completion is final.  When the value in the progress cell is
    100 or more and the interval is live, the next tick sets the value to
    exactly 100, marks the text encrypted and clears the interval; every
    later tick of that interval, whatever it draws, leaves all cells as
    they are. *)
Theorem tick_at_100_completes_for_good h s r rs :
  h ∈ intervals s →
  (100 <= progress s)%Q →
  finished h (tick h r s) ∧
  encrypting (tick h r s) = false ∧ encrypted (tick h r s) = true ∧
  run h (r :: rs) s = tick h r s ∧
  Forall (λ s', s' = tick h r s) (samples h (r :: rs) s).
Proof.
  intros Hh Hp. pose proof (tick_completes h r s Hh Hp) as Hfin.
  split; [done|].
  assert (encrypting (tick h r s) = false ∧ encrypted (tick h r s) = true)
    as [He1 He2].
  { unfold tick, onTick. rewrite decide_True by done.
    apply at_least_100_spec in Hp. by rewrite Hp. }
  split; [done|]. split; [done|]. split.
  - rewrite run_cons. by apply finished_run.
  - simpl. constructor; [done|]. by apply samples_finished.
Qed.

Lemma tick_at_100_completes_for_good_witness :
  let s := run secret_handle (replicate 8 (15 # 16)%Q) secret_started in
  run secret_handle [(1 # 2)%Q; (1 # 3)%Q; (1 # 4)%Q] s =
    tick secret_handle (1 # 2)%Q s.
Proof.
  intros s.
  destruct (tick_at_100_completes_for_good secret_handle s (1 # 2)%Q
              [(1 # 3)%Q; (1 # 4)%Q]) as (_ & _ & _ & H & _).
  - vm_compute. apply list_elem_of_here.
  - vm_compute. discriminate.
  - exact H.
Defined.

(** X2.  With draws in [0,1), every sample after a start with non-empty
    input lies in [0,115): a tick starts below 100 and adds less than 15,
    or sets 100. *)
Theorem started_samples_within_0_115 s rs :
  file s ≠ "" →
  Forall is_draw rs →
  Forall (λ s', (0 <= progress s' < 115)%Q)
    (samples (nextHandle s) rs (simulateEncryption s)).
Proof.
  intros Hf Hrs. apply samples_below_115; [done|].
  rewrite simulateEncryption_started by done. simpl. lra.
Qed.

Lemma started_samples_within_0_115_witness :
  Forall (λ s', (0 <= progress s' < 115)%Q)
    (samples (nextHandle (setFile "secret" initial))
       (replicate 10 (15 # 16)%Q)
       (simulateEncryption (setFile "secret" initial))).
Proof.
  apply (started_samples_within_0_115 (setFile "secret" initial)
           (replicate 10 (15 # 16)%Q)).
  - vm_compute. discriminate.
  - repeat constructor; vm_compute; congruence.
Defined.

Lemma samples_running_while_low h rs s (n : nat) :
  h ∈ intervals s → encrypting s = true →
  (progress s <= 15 * inject_Z (Z.of_nat n))%Q →
  Forall is_draw rs → (n + List.length rs ≤ 7)%nat →
  Forall (λ s', status s' = running ∧ (progress s' < 105)%Q)
    (samples h rs s).
Proof.
  intros Hh He Hp Hrs. revert s n Hh He Hp.
  induction Hrs as [|r rs [Hr0 Hr1] _ IH]; intros s n Hh He Hp Hlen;
    simpl in *; [constructor|].
  assert ((inject_Z (Z.of_nat n) <= 6)%Q) as Hn.
  { change 6%Q with (inject_Z 6). rewrite <- Zle_Qle. lia. }
  assert ((progress s < 100)%Q) as Hlow by lra.
  rewrite tick_advances by done. constructor.
  - unfold status; simpl. rewrite He. split; [done|]. lra.
  - apply (IH _ (S n)); simpl; try done; [|lia].
    rewrite Nat2Z.inj_succ. unfold Z.succ. rewrite inject_Z_plus.
    change (inject_Z 1) with 1%Q. lra.
Qed.

(** X3.  The task cannot finish early: with draws in [0,1) the first
    seven samples after a start are all still running, so the status
    becomes complete at the eighth tick at the earliest. *)
Theorem first_seven_samples_running s rs :
  file s ≠ "" →
  Forall is_draw rs →
  (List.length rs ≤ 7)%nat →
  Forall (λ s', status s' = running)
    (samples (nextHandle s) rs (simulateEncryption s)).
Proof.
  intros Hf Hrs Hlen.
  eapply Forall_impl.
  - apply (samples_running_while_low _ rs _ 0); try done.
    + rewrite simulateEncryption_started by done. simpl. set_solver.
    + by rewrite simulateEncryption_started.
    + rewrite simulateEncryption_started by done.
      change (inject_Z (Z.of_nat 0)) with 0%Q. simpl. lra.
  - by intros s' [? _].
Qed.

Lemma first_seven_samples_running_witness :
  Forall (λ s', status s' = running)
    (samples (nextHandle (setFile "secret" initial))
       (replicate 7 (99 # 100)%Q)
       (simulateEncryption (setFile "secret" initial))).
Proof.
  apply (first_seven_samples_running (setFile "secret" initial)
           (replicate 7 (99 # 100)%Q)).
  - vm_compute. discriminate.
  - repeat constructor; vm_compute; congruence.
  - vm_compute. lia.
Defined.

(** X4.  Whatever the user types and clicks and whenever the timer
    fires, the rendered demo is never both encrypting and encrypted, has
    at most one live interval, and has none unless it is encrypting. *)
Theorem ui_flags_exclusive_single_interval evs :
  encrypting (ui_run evs) && encrypted (ui_run evs) = false ∧
  (List.length (intervals (ui_run evs)) ≤ 1)%nat ∧
  (encrypting (ui_run evs) = false → intervals (ui_run evs) = []).
Proof.
  destruct (ui_run_inv evs) as (H1 & H2 & h & H3).
  split; [|split; [|done]].
  - destruct (encrypting (ui_run evs)); [|done]. by rewrite H1.
  - destruct H3 as [-> | ->]; simpl; lia.
Qed.

(** X5.  Whenever "Try another" is on screen, a click on it leaves the
    demo idle with an empty input, value 0 and no live interval. *)
Theorem ui_reset_returns_to_idle evs :
  encrypted (ui_run evs) = true →
  status (ui_step (ui_run evs) ClickReset) = idle ∧
  file (ui_step (ui_run evs) ClickReset) = "" ∧
  progress (ui_step (ui_run evs) ClickReset) = 0%Q ∧
  intervals (ui_step (ui_run evs) ClickReset) = [].
Proof.
  intros He. destruct (ui_run_inv evs) as (H1 & H2 & _).
  assert (encrypting (ui_run evs) = false) as Hg.
  { destruct (encrypting (ui_run evs)); [|done]. rewrite H1 in He; done. }
  simpl. rewrite He. unfold status, reset; simpl. rewrite Hg.
  by rewrite H2.
Qed.

Lemma ui_reset_returns_to_idle_witness :
  let evs := ([TypeText "secret"; ClickEncrypt] ++
              replicate 9 (Tick 0 (15 # 16)%Q))%list in
  status (ui_step (ui_run evs) ClickReset) = idle.
Proof.
  intros evs.
  destruct (ui_reset_returns_to_idle evs) as (H & _); [reflexivity | exact H].
Defined.

End DemoMore.

(* ===================================================================== *)
(** * More on the cost calculator *)
(* ===================================================================== *)

Section CalcMore.
Import Calc.

Implicit Types (files size : Z) (c : Competitor).

Lemma competitor_price_in_cents c :
  c ∈ competitors →
  ∃ p : Z, (0 ≤ p)%Z ∧ (pricePerGB c * 100 == inject_Z p)%Q.
Proof.
  unfold competitors. rewrite !elem_of_cons, elem_of_nil.
  intros [-> | [-> | [-> | [-> | []]]]]; simpl.
  - by exists 0%Z.
  - by exists 15%Z.
  - by exists 10%Z.
  - by exists 2%Z.
Qed.

(** X7.  Over the whole range of the sliders the storage line shows
    between 0.01 and 97.66 GB: it never shows 0.00. *)
Theorem storage_shown_between_1_and_9766_hundredths files size :
  in_range files size →
  (1 ≤ hundredths (storageShown files size) ≤ 9766)%Z.
Proof.
  intros [Hf Hs]. unfold hundredths, storageShown, totalGB.
  assert ((inject_Z 10 <= inject_Z (files * size))%Q) as Hlo
    by (rewrite <- Zle_Qle; nia).
  assert ((inject_Z (files * size) <= inject_Z 100000)%Q) as Hhi
    by (rewrite <- Zle_Qle; nia).
  set (t := inject_Z (files * size)) in *.
  change (inject_Z 10) with 10%Q in Hlo.
  change (inject_Z 100000) with 100000%Q in Hhi.
  assert ((10 / 1024 <= t / 1024)%Q) as Hlo'.
  { unfold Qdiv. apply Qmult_le_compat_r; [done|]. by vm_compute. }
  assert ((t / 1024 <= 100000 / 1024)%Q) as Hhi'.
  { unfold Qdiv. apply Qmult_le_compat_r; [done|]. by vm_compute. }
  assert (Qle_bool 0 (t / 1024) = true) as ->.
  { apply Qle_bool_iff. apply Qle_shift_div_l; lra. }
  split.
  - change 1%Z with (Qfloor (10 / 1024 * 100 + (1 # 2))).
    apply Qfloor_resp_le.
    apply Qplus_le_l, Qmult_le_compat_r; [done | by vm_compute].
  - change 9766%Z with (Qfloor (100000 / 1024 * 100 + (1 # 2))).
    apply Qfloor_resp_le.
    apply Qplus_le_l, Qmult_le_compat_r; [done | by vm_compute].
Qed.

Lemma storage_shown_between_1_and_9766_hundredths_witness :
  (1 ≤ hundredths (storageShown 10 1) ≤ 9766)%Z.
Proof.
  apply (storage_shown_between_1_and_9766_hundredths 10 1).
  unfold in_range. lia.
Defined.

(** X8.  More files or larger files never make a competitor cheaper. *)
Theorem cost_monotone_in_sliders files size files' size' c :
  c ∈ competitors →
  (0 ≤ files ≤ files')%Z → (0 ≤ size ≤ size')%Z →
  (cost (costOf files size c) <= cost (costOf files' size' c))%Q.
Proof.
  intros Hc Hf Hs. destruct (competitor_price_in_cents c Hc) as (p & Hp0 & Hp).
  assert ((0 <= pricePerGB c)%Q) as Hprice.
  { assert ((0 <= inject_Z p)%Q) as H0
      by (change 0%Q with (inject_Z 0); rewrite <- Zle_Qle; lia).
    lra. }
  rewrite !costOf_product, <- !inject_Z_mult.
  apply Qmult_le_compat_r; [|done].
  rewrite <- Zle_Qle. nia.
Qed.

Lemma cost_monotone_in_sliders_witness :
  (cost (costOf 100 5
      {| name := "Dropbox"; pricePerGB := 10 # 100; hasE2E := false |}) <=
   cost (costOf 200 5
      {| name := "Dropbox"; pricePerGB := 10 # 100; hasE2E := false |}))%Q.
Proof.
  apply (cost_monotone_in_sliders 100 5 200 5).
  - apply list_elem_of_further, list_elem_of_further, list_elem_of_here.
  - lia.
  - lia.
Defined.

End CalcMore.

(* ===================================================================== *)
(** * More on the toast list *)
(* ===================================================================== *)

Section ToastMore.
Import Toasts.

Implicit Types (s : State) (t u : Toast) (i j now : Z) (l : list Toast)
  (evs : list Event).

Lemma elem_of_unschedule_ne i j (l : list Z) :
  j ≠ i → j ∈ l → j ∈ unschedule i l.
Proof.
  intros Hne. induction l as [|k l IH]; simpl; [done|].
  rewrite elem_of_cons. intros [-> | Hj].
  - rewrite decide_False by done. set_solver.
  - destruct (decide (k = i)); [done|]. set_solver.
Qed.

(** Every live toast still has its callback pending. *)
Lemma step_keeps_pending s e :
  (∀ i, i ∈ live_ids s → i ∈ timeouts s) →
  ∀ i, i ∈ live_ids (step s e) → i ∈ timeouts (step s e).
Proof.
  unfold live_ids. intros Hinv i. destruct e as [now ty msg|j|j]; simpl.
  - rewrite fmap_app, !elem_of_app. simpl. intros [Hi|Hi]; [|by right].
    left. by apply Hinv.
  - rewrite live_ids_without, list_elem_of_filter. intros [_ Hi].
    by apply Hinv.
  - destruct (decide (j ∈ timeouts s)); [|by apply Hinv]. simpl.
    rewrite live_ids_without, list_elem_of_filter. intros [Hne Hi].
    apply elem_of_unschedule_ne; [done|]. by apply Hinv.
Qed.

Lemma run_keeps_pending evs s :
  (∀ i, i ∈ live_ids s → i ∈ timeouts s) →
  ∀ i, i ∈ live_ids (run evs s) → i ∈ timeouts (run evs s).
Proof.
  revert s. induction evs as [|e evs IH]; intros s Hinv; [done|].
  change (run (e :: evs) s) with (run evs (step s e)).
  by apply IH, step_keeps_pending.
Qed.

(** X9.  After any pushes, dismissals and expiries, every toast on
    screen still has its removal callback pending: no toast is left
    without a timer that will remove it. *)
Theorem live_toast_has_pending_timeout evs t :
  t ∈ toasts (run evs initial) → id t ∈ timeouts (run evs initial).
Proof.
  intros Ht. apply (run_keeps_pending evs initial).
  - intros i Hi. by apply elem_of_nil in Hi.
  - unfold live_ids. apply list_elem_of_fmap. by exists t.
Qed.

Lemma live_toast_has_pending_timeout_witness :
  let evs := [Push 1000 info "a"; Push 1001 success "b";
              Dismiss 1000; Expire 1000] in
  (1001 ∈ timeouts (run evs initial))%Z.
Proof.
  intros evs.
  apply (live_toast_has_pending_timeout evs
           {| id := 1001; type := success; message := "b" |}).
  vm_compute. apply list_elem_of_here.
Defined.

Lemma run_fire_all (pending : list Z) s :
  timeouts s = pending →
  (∀ i, i ∈ live_ids s → i ∈ pending) →
  toasts (run (Expire <$> pending) s) = [].
Proof.
  revert s. induction pending as [|j pending IH]; intros s Hts Hinv.
  - simpl. destruct (toasts s) as [|t l] eqn:Hl; [done|].
    exfalso. apply (elem_of_nil (id t)), Hinv.
    unfold live_ids. rewrite Hl. set_solver.
  - rewrite fmap_cons.
    change (run (Expire j :: (Expire <$> pending)) s)
      with (run (Expire <$> pending) (step s (Expire j))).
    simpl. rewrite decide_True by (rewrite Hts; set_solver).
    apply IH.
    + simpl. rewrite Hts. simpl. by rewrite decide_True.
    + intros i. unfold live_ids; simpl.
      rewrite live_ids_without, list_elem_of_filter. intros [Hne Hi].
      pose proof (Hinv _ Hi) as Hp.
      apply elem_of_cons in Hp as [Heq|Hp]; [by subst|done].
Qed.

(** X10.  Whatever was pushed and dismissed, once every pending callback
    has run the list of toasts is empty. *)
Theorem all_timeouts_fired_leaves_no_toast evs :
  toasts (run (Expire <$> timeouts (run evs initial)) (run evs initial)) = [].
Proof.
  apply run_fire_all; [done|].
  apply run_keeps_pending. intros i Hi. by apply elem_of_nil in Hi.
Qed.

Lemma run_live_ids_sublist evs s :
  live_ids (run evs s) `sublist_of` (live_ids s ++ assigned evs)%list.
Proof.
  revert s. induction evs as [|e evs IH]; intros s.
  - simpl. by rewrite app_nil_r.
  - change (run (e :: evs) s) with (run evs (step s e)).
    etrans; [apply IH|]. destruct e as [now ty msg|j|j]; simpl.
    + unfold live_ids; simpl. by rewrite fmap_app, <- app_assoc.
    + apply sublist_app; [|done]. unfold live_ids; simpl.
      rewrite live_ids_without. apply sublist_filter.
    + apply sublist_app; [|done].
      destruct (decide (j ∈ timeouts s)); [|done]. unfold live_ids; simpl.
      rewrite live_ids_without. apply sublist_filter.
Qed.

(** X11.  The toasts on screen are always some of the pushed ones, in
    the order in which they were pushed: nothing is reordered or
    invented, and there are never more toasts than pushes. *)
Theorem live_toasts_in_push_order evs :
  live_ids (run evs initial) `sublist_of` assigned evs ∧
  (List.length (toasts (run evs initial)) ≤ List.length (assigned evs))%nat.
Proof.
  pose proof (run_live_ids_sublist evs initial) as H. simpl in H.
  split; [done|]. apply sublist_length in H.
  unfold live_ids in H. by rewrite length_fmap in H.
Qed.

End ToastMore.

(* ===================================================================== *)
(** * More on the theme, the accordion, the scroll flags and the lazy image *)
(* ===================================================================== *)

Section ThemeMore.
Import Theme ThemeSession.

Implicit Types (w : Window) (st : State) (sys : bool).

Lemma mount_stores_mode w :
  localStorage (mount w).2 !! theme_key = Some (theme_name (mount w).1).
Proof. simpl. apply lookup_insert_eq. Qed.

Lemma click_stores_mode st :
  localStorage (click st).2 !! theme_key = Some (theme_name (click st).1).
Proof. simpl. apply lookup_insert_eq. Qed.

Lemma clicks_store_mode w n :
  localStorage (Nat.iter n click (mount w)).2 !! theme_key =
    Some (theme_name (Nat.iter n click (mount w)).1).
Proof. destruct n; [apply mount_stores_mode | apply click_stores_mode]. Qed.

Lemma clicks_mode w n :
  (Nat.iter n click (mount w)).1 =
    if Nat.even n then initDarkMode (Some w) else negb (initDarkMode (Some w)).
Proof.
  induction n as [|n IH]; [done|].
  rewrite Nat.even_succ, <- Nat.negb_even. simpl. rewrite IH.
  destruct (Nat.even n); simpl; [done|]. apply negb_involutive.
Qed.

(** X12.  After the first render and any number of clicks on the theme
    button, a later visit starts in the theme the page was left in,
    whatever the system colour scheme is by then; that theme is the
    initial one after an even number of clicks and the other one after
    an odd number. *)
Theorem theme_survives_reload w n sys :
  initDarkMode (Some (with_system sys (Nat.iter n click (mount w)).2)) =
    (Nat.iter n click (mount w)).1 ∧
  (Nat.iter n click (mount w)).1 =
    if Nat.even n then initDarkMode (Some w) else negb (initDarkMode (Some w)).
Proof.
  split; [|apply clicks_mode].
  apply initDarkMode_saved. simpl. apply clicks_store_mode.
Qed.

(** X13.  A stored text that is neither empty nor "dark" gives the light
    theme, even when the system asks for dark. *)
Theorem stored_unknown_text_gives_light (ls : gmap string string) sys saved :
  saved ≠ "" → saved ≠ "dark" →
  initDarkMode (Some {| localStorage := <[theme_key := saved]> ls;
                        prefersDark := sys |}) = false.
Proof.
  intros Hne Hnd. apply (initDarkMode_other_text _ saved); [|done..].
  simpl. apply lookup_insert_eq.
Qed.

Lemma stored_unknown_text_gives_light_witness :
  initDarkMode (Some {| localStorage := <[theme_key := "Dark"]> ∅;
                        prefersDark := true |}) = false.
Proof.
  apply (stored_unknown_text_gives_light ∅ true "Dark"); discriminate.
Defined.

End ThemeMore.

Section FaqMore.
Import Faq.

Implicit Types (openFaq : option nat) (i j k : nat).

(** The cell after the clicks [clicks], oldest first. *)
Lemma clicks_snoc (clicks : list nat) i openFaq :
  foldl (λ s i, select i s) openFaq (clicks ++ [i])%list =
    select i (foldl (λ s i, select i s) openFaq clicks).
Proof. by rewrite foldl_app. Qed.

Lemma repeated_clicks i k openFaq :
  openFaq ≠ Some i →
  foldl (λ s i, select i s) openFaq (replicate (S k) i) =
    if Nat.even k then Some i else None.
Proof.
  intros Hne. induction k as [|k IH].
  - simpl. unfold select. by rewrite decide_False.
  - rewrite replicate_S_end, clicks_snoc, IH, Nat.even_succ, <- Nat.negb_even.
    unfold select. destruct (Nat.even k).
    + by rewrite decide_True.
    + by rewrite decide_False.
Qed.

(** X14.  After any clicks, a click on another item [j] and then [k+1]
    clicks on item [i], item [i] is open when the number of those last
    clicks is odd and nothing is open when it is even. *)
Theorem faq_open_by_parity_of_last_clicks (clicks : list nat) i j k openFaq :
  j ≠ i →
  foldl (λ s i, select i s) openFaq
    (clicks ++ [j] ++ replicate (S k) i)%list =
    if Nat.even k then Some i else None.
Proof.
  intros Hne. rewrite app_assoc, foldl_app.
  apply repeated_clicks. rewrite clicks_snoc. unfold select.
  destruct (decide _); [done|]. congruence.
Qed.

Lemma faq_open_by_parity_of_last_clicks_witness :
  foldl (λ s i, select i s) None ([0; 0; 3] ++ [1] ++ replicate 2 2)%list =
    None.
Proof.
  apply (faq_open_by_parity_of_last_clicks [0; 0; 3] 2 1 1 None). lia.
Defined.

End FaqMore.

Section ScrollMore.
Import Scroll.




End ScrollMore.

Section LazyImageMore.
Import LazyImage.

Implicit Types (s : State) (evs : list Event).

Lemma run_error_final evs s : error s = true → run evs s = s.
Proof.
  intros He. induction evs as [|e evs IH]; [done|].
  change (run (e :: evs) s) with (run evs (step s e)).
  unfold step at 1. by rewrite He.
Qed.

Lemma step_leaves_skeleton s e : skeleton (step s e) = false.
Proof.
  unfold skeleton, step. destruct (error s) eqn:He.
  - rewrite He. apply andb_false_r.
  - destruct e; simpl; [done|]. apply andb_false_r.
Qed.

Lemma run_flags_monotone evs s :
  (loaded s = true → loaded (run evs s) = true) ∧
  (error s = true → error (run evs s) = true).
Proof.
  revert s. induction evs as [|e evs IH]; intros s; [done|].
  change (run (e :: evs) s) with (run evs (step s e)).
  destruct (IH (step s e)) as [IHl IHe]. split; intros H.
  - apply IHl. unfold step. destruct (error s), e; simpl; done.
  - apply IHe. unfold step. by rewrite H.
Qed.

(** X18.  The skeleton is on screen exactly until the first load or
    error event reaches the image; after an error the placeholder stays,
    whatever follows, and the image element is gone. *)
Theorem skeleton_until_first_event_error_final evs :
  (skeleton (run evs initial) = true ↔ evs = []) ∧
  (error (run evs initial) = true →
     img (run evs initial) = false ∧ glyph (run evs initial) = true ∧
     ∀ evs', run evs' (run evs initial) = run evs initial).
Proof.
  split.
  - split; [|by intros ->].
    destruct evs as [|e evs _] using rev_ind; [done|].
    unfold run. rewrite foldl_app. simpl.
    by rewrite step_leaves_skeleton.
  - intros He. unfold img, glyph. rewrite He. repeat split.
    intros evs'. by apply run_error_final.
Qed.

Lemma skeleton_until_first_event_error_final_witness :
  run [Load; Error; Load] (run [Load; Error] initial) =
    run [Load; Error] initial.
Proof.
  destruct (skeleton_until_first_event_error_final [Load; Error])
    as [_ H].
  destruct (H eq_refl) as (_ & _ & H'). apply H'.
Defined.

End LazyImageMore.

(* ===================================================================== *)
(** * The tour on the page *)
(* ===================================================================== *)

Section PageFacts.
Import Page.

Implicit Types (s : State) (evs : list Event) (st : gmap string string).

Lemma closeTour_inv st s (b : bool) :
  page_inv st s →
  page_inv st {| tour := Tour.closeTour (tour s); autoPending := b |}.
Proof.
  intros (Hr & _ & _ & _ & Hw).
  split; [done|]. split; [done|]. split; [|split]; simpl.
  - intros Hnil. by apply app_eq_nil in Hnil as [_ ?].
  - intros _. apply lookup_insert_eq.
  - apply Forall_app. split; [done|]. by constructor.
Qed.

(** A change of [showTour], [mounted] and [step] alone. *)
Lemma cells_inv st s (t : Tour.State) (b : bool) :
  page_inv st s →
  (0 ≤ Tour.step t ≤ Tour.N - 1)%Z →
  (Tour.showTour t = true → Tour.mounted t = true) →
  Tour.storage t = Tour.storage (tour s) →
  Tour.setItems t = Tour.setItems (tour s) →
  page_inv st {| tour := t; autoPending := b |}.
Proof.
  intros (_ & _ & H3 & H4 & H5) Hr Hm Hst Hlog.
  split; [done|]. split; [done|]. simpl. rewrite Hst, Hlog. by split.
Qed.

Lemma next_inv st s (b : bool) :
  page_inv st s →
  page_inv st {| tour := Tour.next (tour s); autoPending := b |}.
Proof.
  intros Hinv. pose proof Hinv as (Hr & Hm & _). unfold Tour.next.
  destruct (Tour.mounted (tour s)) eqn:Hmo; [|exact Hinv].
  destruct (Z.ltb_spec (Tour.step (tour s)) (Tour.N - 1)).
  - apply (cells_inv st s); simpl; try done. lia.
  - by apply closeTour_inv.
Qed.

Lemma previous_inv st s (b : bool) :
  page_inv st s →
  page_inv st {| tour := Tour.previous (tour s); autoPending := b |}.
Proof.
  intros Hinv. pose proof Hinv as (Hr & Hm & _). unfold Tour.previous.
  destruct (Tour.mounted (tour s)) eqn:Hmo; simpl; [|exact Hinv].
  destruct (Z.ltb_spec 0 (Tour.step (tour s))); [|exact Hinv].
  apply (cells_inv st s); simpl; try done. lia.
Qed.

Lemma openTour_inv st s (b : bool) :
  page_inv st s →
  page_inv st {| tour := Tour.openTour (tour s); autoPending := b |}.
Proof.
  intros Hinv. pose proof Hinv as (Hr & _). apply (cells_inv st s); simpl; try done.
  by destruct (Tour.mounted (tour s)).
Qed.

Lemma exitComplete_inv st s (b : bool) :
  page_inv st s →
  page_inv st {| tour := Tour.exitComplete (tour s); autoPending := b |}.
Proof.
  intros Hinv. pose proof Hinv as (Hr & Hm & _). unfold Tour.exitComplete.
  destruct (Tour.showTour (tour s)) eqn:Hs;
    [exact Hinv | by apply (cells_inv st s)].
Qed.

Lemma step_inv st s e : page_inv st s → page_inv st (step s e).
Proof.
  intros Hinv. destruct e; simpl.
  - by apply next_inv.
  - by apply previous_inv.
  - destruct (Tour.mounted (tour s)); [by apply closeTour_inv | exact Hinv].
  - by apply openTour_inv.
  - destruct (autoPending s); [by apply openTour_inv | done].
  - by apply exitComplete_inv.
Qed.

Lemma mount_inv st : page_inv st (mount st).
Proof. repeat split; simpl; try done. Qed.

Lemma run_inv_page st evs s : page_inv st s → page_inv st (run evs s).
Proof.
  revert s. induction evs as [|e evs IH]; intros s Hs; [done|].
  change (run (e :: evs) s) with (run evs (step s e)).
  by apply IH, step_inv.
Qed.

(** X15.  On a page whose tour effect ran on any storage, after any
    clicks on "Next", "Previous", the close button and "Take Tour", the
    auto-open timer and the end of exit animations, in any order (also
    while the panel fades out, and when it is reopened before it is
    gone): the step is within [0, N-1], a shown panel is mounted, every
    write made was the seen-flag set to "true", and the flag reads what
    it read at the start before the first write and "true" after it. *)
Theorem page_tour_step_in_range_flag_only st evs :
  (0 ≤ Tour.step (tour (run evs (mount st))) ≤ Tour.N - 1)%Z ∧
  (Tour.showTour (tour (run evs (mount st))) = true →
     Tour.mounted (tour (run evs (mount st))) = true) ∧
  Forall (λ kv, kv = (Tour.seen_key, "true"))
    (Tour.setItems (tour (run evs (mount st)))) ∧
  (Tour.setItems (tour (run evs (mount st))) = [] →
     Tour.storage (tour (run evs (mount st))) !! Tour.seen_key =
       st !! Tour.seen_key) ∧
  (Tour.setItems (tour (run evs (mount st))) ≠ [] →
     Tour.storage (tour (run evs (mount st))) !! Tour.seen_key =
       Some "true").
Proof.
  destruct (run_inv_page st evs _ (mount_inv st)) as (H1 & H2 & H3 & H4 & H5).
  done.
Qed.

Lemma page_tour_step_in_range_flag_only_witness :
  let evs := [AutoOpen; ClickNext; ClickNext; ClickNext; ClickNext;
              ClickTakeTour; ClickNext; ExitDone; ClickNext] in
  (0 ≤ Tour.step (tour (run evs (mount ∅))) ≤ Tour.N - 1)%Z ∧
  Tour.storage (tour (run evs (mount ∅))) !! Tour.seen_key = Some "true".
Proof.
  intros evs.
  destruct (page_tour_step_in_range_flag_only ∅ evs) as (H1 & _ & _ & _ & H5).
  split; [exact H1|]. apply H5. vm_compute. discriminate.
Defined.

Lemma step_stays_closed s e :
  Tour.showTour (tour s) = false → Tour.mounted (tour s) = false →
  autoPending s = false →
  e ≠ ClickTakeTour →
  step s e = s.
Proof.
  intros Hshow Hmo Hauto He. destruct s as [t a]; simpl in *. subst a.
  destruct e; simpl; try done.
  - unfold Tour.next. by rewrite Hmo.
  - unfold Tour.previous. by rewrite Hmo.
  - by rewrite Hmo.
  - unfold Tour.exitComplete. rewrite Hshow.
    destruct t; simpl in *. by subst.
Qed.

Lemma run_stays_closed evs s :
  Tour.showTour (tour s) = false → Tour.mounted (tour s) = false →
  autoPending s = false →
  ClickTakeTour ∉ evs →
  run evs s = s.
Proof.
  intros Hshow Hmo Hauto. induction evs as [|e evs IH]; [done|].
  rewrite not_elem_of_cons. intros [Hne Hevs].
  change (run (e :: evs) s) with (run evs (step s e)).
  rewrite step_stays_closed by done. by apply IH.
Qed.

(** X16.  Once the tour has been closed, on any later visit the panel
    stays closed, and nothing is written, unless "Take Tour" is clicked:
    the timer is not even scheduled. *)
Theorem closed_tour_never_opens_by_itself st evs evs' :
  Tour.setItems (tour (run evs (mount st))) ≠ [] →
  ClickTakeTour ∉ evs' →
  autoPending (mount (Tour.storage (tour (run evs (mount st))))) = false ∧
  run evs' (mount (Tour.storage (tour (run evs (mount st))))) =
    mount (Tour.storage (tour (run evs (mount st)))).
Proof.
  intros Hclosed Hevs'.
  destruct (run_inv_page st evs _ (mount_inv st)) as (_ & _ & _ & H4 & _).
  assert (autoPending (mount (Tour.storage (tour (run evs (mount st)))))
          = false) as Hauto.
  { simpl. unfold autoOpenScheduled. by rewrite (H4 Hclosed). }
  split; [done|]. by apply run_stays_closed.
Qed.

Lemma closed_tour_never_opens_by_itself_witness :
  let evs := [AutoOpen; ClickNext; ClickNext; ClickNext; ClickNext] in
  let evs' := [AutoOpen; ClickNext; ClickClose; ClickPrevious] in
  Tour.showTour
    (tour (run evs' (mount (Tour.storage (tour (run evs (mount ∅))))))) =
  false.
Proof.
  intros evs evs'.
  destruct (closed_tour_never_opens_by_itself ∅ evs evs') as [_ H].
  - vm_compute. discriminate.
  - intros Hin. repeat (apply elem_of_cons in Hin as [Hin|Hin]; [discriminate|]).
    by apply elem_of_nil in Hin.
  - by rewrite H.
Defined.

End PageFacts.
